(** * g.html2man: the table-of-contents filter, the driver and the
      whitespace normaliser of [tools/g.html2man/g.html2man.py]

    The script is Python 2.  Its values are embedded as follows.
    - A Python [str] is a [string] (a sequence of 8-bit characters).
    - The parse tree handed over by the HTML parser is built from 3-tuples
      [(tag, attrs, body)], lists and scalars (text, or [None] for the body
      of an empty element); [content] has one constructor per shape that
      [fix] tells apart with [isinstance].
    - [main] is effectful: it is written in a small monad over a [world]
      (files, open handles, the error stream) whose computations end in a
      value, a raised exception or [sys.exit]. *)

From Stdlib Require Import String Ascii List Bool Arith ZArith Lia.
From Stdlib Require Import DecimalString.
Import ListNotations.

Local Open Scope string_scope.
Local Open Scope list_scope.
Set Warnings "-register-all".

(* ================================================================== *)
(** ** The parse tree *)

Module Tree.

(** An attribute as the parser reports it: a name and a value, the value
    being [None] for an attribute written without [=value]. *)
Definition attr : Type := (string * option string)%type.

(** The shapes [fix] distinguishes: a tuple, a list, and anything else.
    The scalars that occur are text and [None]. *)
Inductive content : Type :=
| Element (tag : string) (attrs : list attr) (body : content)
| Nodes (items : list content)
| Text (s : string)
| PyNone.

Definition attr_eqb (a b : attr) : bool :=
  String.eqb (fst a) (fst b) &&
  match snd a, snd b with
  | Some x, Some y => String.eqb x y
  | None, None => true
  | _, _ => false
  end.

(** [x in attrs] *)
Definition py_in (x : attr) (attrs : list attr) : bool :=
  existsb (attr_eqb x) attrs.

(** [tag == 'div' and ('class', 'toc') in attrs] *)
Definition is_toc (tag : string) (attrs : list attr) : bool :=
  String.eqb tag "div" && py_in ("class", Some "toc") attrs.

(** [fixed is not None] *)
Definition is_not_None (c : content) : bool :=
  match c with
  | PyNone => false
  | _ => true
  end.

(** [fix]: the list case is the comprehension
    [[fixed for item in content for fixed in [fix(item)] if fixed is not None]],
    two nested generators and a guard. *)
Fixpoint fix_ (c : content) : content :=
  match c with
  | Element tag attrs body =>
      if is_toc tag attrs then PyNone
      else Element tag attrs (fix_ body)
  | Nodes items =>
      Nodes (flat_map (fun item => filter is_not_None [fix_ item]) items)
  | other => other
  end.

(** The list case of [fix], on the items. *)
Definition fix_items (items : list content) : list content :=
  flat_map (fun item => filter is_not_None [fix_ item]) items.

(** The text content of a tree, in document order. *)
Fixpoint texts (c : content) : list string :=
  match c with
  | Element _ _ body => texts body
  | Nodes items => flat_map texts items
  | Text s => [s]
  | PyNone => []
  end.

(** Whether a table-of-contents [div] occurs anywhere in a tree. *)
Fixpoint has_toc (c : content) : bool :=
  match c with
  | Element tag attrs body => is_toc tag attrs || has_toc body
  | Nodes items => existsb has_toc items
  | _ => false
  end.

(** A position of a child in a tree: the child is an item of a list of
    nodes, reached through any number of enclosing elements and lists. *)
Inductive position : Type :=
| Here (before after : list content)
| InElement (tag : string) (attrs : list attr) (p : position)
| InItem (before : list content) (p : position) (after : list content).

(** The tree that has [x] at position [p]. *)
Fixpoint plug (p : position) (x : content) : content :=
  match p with
  | Here before after => Nodes (before ++ x :: after)
  | InElement tag attrs p' => Element tag attrs (plug p' x)
  | InItem before p' after => Nodes (before ++ plug p' x :: after)
  end.

(** The same tree with the child at position [p] deleted. *)
Fixpoint unplug (p : position) : content :=
  match p with
  | Here before after => Nodes (before ++ after)
  | InElement tag attrs p' => Element tag attrs (unplug p')
  | InItem before p' after => Nodes (before ++ unplug p' :: after)
  end.

(** Whether some list of the tree, at any depth, has [None] among its
    items. *)
Fixpoint none_items (c : content) : bool :=
  match c with
  | Element _ _ body => none_items body
  | Nodes items =>
      existsb (fun x => negb (is_not_None x) || none_items x) items
  | _ => false
  end.

(** [l1] is [l2] with some of its elements taken out. *)
Inductive subseq {A : Type} : list A -> list A -> Prop :=
| subseq_nil : subseq [] []
| subseq_keep (x : A) (l1 l2 : list A) :
    subseq l1 l2 -> subseq (x :: l1) (x :: l2)
| subseq_drop (x : A) (l1 l2 : list A) :
    subseq l1 l2 -> subseq l1 (x :: l2).

(** Induction on trees that reaches the items of a list. *)
Section content_induction.
Variable P : content -> Prop.
Hypothesis P_Element : forall tag attrs body, P body -> P (Element tag attrs body).
Hypothesis P_Nodes : forall items, Forall P items -> P (Nodes items).
Hypothesis P_Text : forall s, P (Text s).
Hypothesis P_None : P PyNone.

Fixpoint content_induction (c : content) : P c :=
  match c with
  | Element tag attrs body => P_Element tag attrs body (content_induction body)
  | Nodes items =>
      P_Nodes items
        ((fix go (l : list content) : Forall P l :=
            match l with
            | [] => Forall_nil P
            | x :: l' => Forall_cons x (content_induction x) (go l')
            end) items)
  | Text s => P_Text s
  | PyNone => P_None
  end.
End content_induction.

End Tree.

(* ================================================================== *)
(** ** Regular expressions and the whitespace normaliser *)

Module Re.

(** The fragment of [re] patterns that [blank_re] is written in: a
    character class (a literal character is a class of one), juxtaposition
    and the greedy star.  A group only brackets. *)
Inductive regex : Type :=
| CharSet (cs : list ascii)
| Cat (r1 r2 : regex)
| Star (r : regex).

Definition mem (c : ascii) (cs : list ascii) : bool :=
  existsb (Ascii.eqb c) cs.

Definition SP : ascii := " "%char.
Definition TAB : ascii := ascii_of_nat 9.
Definition NL : ascii := ascii_of_nat 10.

(** The classes [[ \t\n]] and [[ \t]]. *)
Definition WS : list ascii := [SP; TAB; NL].
Definition ST : list ascii := [SP; TAB].

(** A backtracking matcher in continuation-passing style: [rmatch r s k]
    matches [r] at the start of [s] and hands what is left to [k]; when [k]
    fails the matcher backtracks.  The star is greedy: it tries one more
    iteration before it tries to stop.  An iteration that consumes nothing
    ends the loop, so the length of the text bounds the iterations. *)
Fixpoint rmatch (r : regex) (s : string) (k : string -> option string)
  : option string :=
  match r with
  | CharSet cs =>
      match s with
      | String c s' => if mem c cs then k s' else None
      | EmptyString => None
      end
  | Cat r1 r2 => rmatch r1 s (fun s' => rmatch r2 s' k)
  | Star r1 =>
      (fix loop (fuel : nat) (s : string) {struct fuel} : option string :=
         match fuel with
         | O => k s
         | S fuel' =>
             match rmatch r1 s
                     (fun s' => if Nat.ltb (String.length s') (String.length s)
                                then loop fuel' s' else None) with
             | Some rest => Some rest
             | None => k s
             end
         end) (String.length s) s
  end.

(** [pattern.match] at the start of [s]: the text after the match. *)
Definition match_at (r : regex) (s : string) : option string :=
  rmatch r s Some.

(** [pattern.sub(repl, s)] for a replacement without group references:
    scan from the left; where the pattern matches, emit [repl] and go on
    after the match, elsewhere copy one character.  An empty match directly
    after a match is not replaced. *)
Fixpoint sub_loop (fuel : nat) (r : regex) (repl s : string)
  (after_match : bool) : string :=
  match fuel with
  | O => s
  | S fuel' =>
      let copy :=
        match s with
        | String c s' => String c (sub_loop fuel' r repl s' false)
        | EmptyString => EmptyString
        end in
      match match_at r s with
      | Some rest =>
          if Nat.ltb (String.length rest) (String.length s)
          then repl ++ sub_loop fuel' r repl rest true
          else (if after_match then "" else repl) ++ copy
      | None => copy
      end
  end.

Definition sub (r : regex) (repl s : string) : string :=
  sub_loop (S (String.length s)) r repl s false.

(** ["[ \t\n]*\n([ \t]*\n)*"] *)
Definition blank_re : regex :=
  Cat (Star (CharSet WS))
      (Cat (CharSet [NL])
           (Star (Cat (Star (CharSet ST)) (CharSet [NL])))).

(** [c.isspace()] for a character of a [str]. *)
Definition isspace (c : ascii) : bool :=
  let n := nat_of_ascii c in
  (Nat.leb 9 n && Nat.leb n 13) || Nat.eqb n 32.

(** [s.lstrip()] *)
Fixpoint lstrip (s : string) : string :=
  match s with
  | String c s' => if isspace c then lstrip s' else s
  | EmptyString => EmptyString
  end.

(** The two statements under [# strip excess whitespace]. *)
Definition normalize (s : string) : string :=
  lstrip (sub blank_re (String NL "") s).

(** *** The normaliser said in words

    The definitions below are written from the description of the step,
    not from the code; the theorems compare them with [normalize]. *)

(** The rest of the line is blank and the line is ended: only spaces and
    tabs come before the next newline. *)
Fixpoint blank_to_eol (s : string) : bool :=
  match s with
  | String c s' =>
      if Ascii.eqb c NL then true
      else if mem c ST then blank_to_eol s'
      else false
  | EmptyString => false
  end.

(** Delete every space, tab and newline that is followed, after spaces and
    tabs only, by a newline; keep every other character. *)
Fixpoint collapse (s : string) : string :=
  match s with
  | String c s' =>
      if mem c WS && blank_to_eol s' then collapse s'
      else String c (collapse s')
  | EmptyString => EmptyString
  end.

(** The lines of a text, without their terminators; the last one is what
    follows the last newline. *)
Fixpoint lines (s : string) : list string :=
  match s with
  | String c s' =>
      if Ascii.eqb c NL then EmptyString :: lines s'
      else match lines s' with
           | l :: ls => String c l :: ls
           | [] => [String c EmptyString]
           end
  | EmptyString => [EmptyString]
  end.

(** A line that is empty or holds only spaces and tabs. *)
Fixpoint blank_line (l : string) : bool :=
  match l with
  | String c l' => mem c ST && blank_line l'
  | EmptyString => true
  end.

(** No space, tab or newline of the text is followed, after spaces and
    tabs only, by a newline. *)
Fixpoint tidy (s : string) : bool :=
  match s with
  | String c s' => negb (mem c WS && blank_to_eol s') && tidy s'
  | EmptyString => true
  end.

(** Every character of a text passes a test. *)
Fixpoint all_chars (p : ascii -> bool) (s : string) : bool :=
  match s with
  | String c s' => p c && all_chars p s'
  | EmptyString => true
  end.

(** The characters of a text other than space, tab and newline. *)
Fixpoint ink (s : string) : string :=
  match s with
  | String c s' => if mem c WS then ink s' else String c (ink s')
  | EmptyString => EmptyString
  end.

End Re.

(* ================================================================== *)
(** ** The driver [main] *)

Module Driver.

Import Tree Re.

(** The exceptions [main] tells apart: the parser's [HTMLParseError], with
    its position and message, and any other [Exception], of which the
    handler uses [repr(err)] only. *)
Inductive exn : Type :=
| HTMLParseError (lineno offset : Z) (msg : string)
| Exception (repr : string).

(** The two file objects of [main], named by the variables that hold them. *)
Inductive fileobj : Type := inf | outf.

Inductive mode : Type := ReadMode | WriteMode.

Definition fileobj_eqb (a b : fileobj) : bool :=
  match a, b with
  | inf, inf | outf, outf => true
  | _, _ => false
  end.

(** What the process does to its surroundings, in order. *)
Inductive event : Type :=
| EOpen (f : fileobj) (path : string) (m : mode)
| EWrite (f : fileobj) (text : string)
| EClose (f : fileobj)
| EStderr (text : string).

(** The surroundings: the contents of the files as seen through a path,
    which paths besides the equal ones name the same file, the exception
    that opening a path for writing raises if it cannot be opened (no such
    directory, no permission), the file objects that are open, and the
    events so far. *)
Record world : Type := mkWorld {
  fs : string -> option string;
  same_file : string -> string -> bool;
  write_error : string -> option exn;
  handles : fileobj -> option (string * mode);
  trace : list event
}.

(** How a computation ends: with a value, with an exception on its way up,
    or in [sys.exit]. *)
Inductive outcome (A : Type) : Type :=
| Return (a : A)
| Raise (e : exn)
| Exit (status : Z).
Arguments Return {A} a.
Arguments Raise {A} e.
Arguments Exit {A} status.

Definition M (A : Type) : Type := world -> outcome A * world.

Definition ret {A} (a : A) : M A := fun w => (Return a, w).

Definition bind {A B} (m : M A) (k : A -> M B) : M B :=
  fun w =>
    match m w with
    | (Return a, w') => k a w'
    | (Raise e, w') => (Raise e, w')
    | (Exit n, w') => (Exit n, w')
    end.

Notation "x <- m ;; k" := (bind m (fun x => k))
  (at level 61, m at next level, right associativity).
Notation "m ;;; k" := (bind m (fun _ => k))
  (at level 61, right associativity).

Definition raise {A} (e : exn) : M A := fun w => (Raise e, w).

(** [sys.exit(status)] *)
Definition sys_exit {A} (status : Z) : M A := fun w => (Exit status, w).

Definition log (e : event) (w : world) : world :=
  mkWorld (fs w) (same_file w) (write_error w) (handles w) (trace w ++ [e]).

Definition set_handle (f : fileobj) (h : option (string * mode)) (w : world)
  : world :=
  mkWorld (fs w) (same_file w) (write_error w)
          (fun g => if fileobj_eqb g f then h else handles w g)
          (trace w).

(** The file that [path] names gets a new text, which every path that
    names it shows. *)
Definition set_file (path text : string) (w : world) : world :=
  mkWorld (fun p => if String.eqb p path || same_file w p path
                    then Some text else fs w p)
          (same_file w) (write_error w) (handles w) (trace w).

(** [sys.stderr.write(text)] *)
Definition stderr_write (text : string) : M unit :=
  fun w => (Return tt, log (EStderr text) w).

(** [sys.argv[i]] *)
Definition argv_get (argv : list string) (i : nat) : M string :=
  match nth_error argv i with
  | Some a => ret a
  | None => raise (Exception "IndexError('list index out of range',)")
  end.

(** [f = file(path)]: the file has to exist; the value is its text. *)
Definition file_read (f : fileobj) (path : string) : M string :=
  fun w =>
    match fs w path with
    | Some text =>
        (Return text, log (EOpen f path ReadMode) (set_handle f (Some (path, ReadMode)) w))
    | None => (Raise (Exception "IOError(2, 'No such file or directory')"), w)
    end.

(** [f = file(path, 'w')]: the file is created or truncated, unless the
    path cannot be opened for writing; then the [IOError] is raised and
    there is no file object and no file. *)
Definition file_write_open (f : fileobj) (path : string) : M unit :=
  fun w =>
    match write_error w path with
    | Some e => (Raise e, w)
    | None =>
        (Return tt,
         log (EOpen f path WriteMode)
             (set_handle f (Some (path, WriteMode)) (set_file path "" w)))
    end.

(** [f.write(text)] *)
Definition file_write (f : fileobj) (text : string) : M unit :=
  fun w =>
    match handles w f with
    | Some (path, WriteMode) =>
        let old := match fs w path with Some t => t | None => "" end in
        (Return tt, log (EWrite f text) (set_file path (old ++ text) w))
    | _ => (Raise (Exception "IOError('File not open for writing',)"), w)
    end.

(** [f.close()] *)
Definition file_close (f : fileobj) : M unit :=
  fun w => (Return tt, log (EClose f) (set_handle f None w)).

(** Iterating over a file yields its lines with their terminators. *)
Fixpoint readlines (s : string) : list string :=
  match s with
  | String c s' =>
      if Ascii.eqb c NL then String NL "" :: readlines s'
      else match readlines s' with
           | l :: ls => String c l :: ls
           | [] => [String c ""]
           end
  | EmptyString => []
  end.

(** A line as a file yields it: it ends in its newline and has no other,
    or, if the text stops short of a newline, it is not empty and has
    none. *)
Fixpoint terminated (l : string) : bool :=
  match l with
  | String c l' =>
      if Ascii.eqb c NL then String.eqb l' "" else terminated l'
  | EmptyString => false
  end.

Definition unterminated (l : string) : bool :=
  negb (String.eqb l "") && all_chars (fun c => negb (Ascii.eqb c NL)) l.

Fixpoint lines_ok (ls : list string) : bool :=
  match ls with
  | [] => true
  | l :: ls' =>
      (terminated l
       || (match ls' with [] => true | _ => false end && unterminated l))
      && lines_ok ls'
  end.

(** The number of newlines in a text. *)
Fixpoint newlines (s : string) : nat :=
  match s with
  | String c s' => (if Ascii.eqb c NL then 1 else 0) + newlines s'
  | EmptyString => 0
  end.

(** ['%d' % n] *)
Definition fmt_d (n : Z) : string := NilZero.string_of_int (Z.to_int n).

(** ['%s:%d:%d: Parse error: %s\n' % (infile, lineno, offset, msg)] *)
Definition parse_error_message (infile : string) (lineno offset : Z)
  (msg : string) : string :=
  infile ++ ":" ++ fmt_d lineno ++ ":" ++ fmt_d offset
    ++ ": Parse error: " ++ msg ++ String NL "".

(** ['%s:%d:0: Error (%s): %s\n' % (infile, number, repr, line)] *)
Definition internal_error_message (infile : string) (number : Z)
  (repr line : string) : string :=
  infile ++ ":" ++ fmt_d number ++ ":0: Error (" ++ repr ++ "): "
    ++ line ++ String NL "".

Definition entities : list (string * string) :=
  [("nbsp", " "); ("bull", "*")].

(** The modules [html] and [groff] are imported, not part of the script:
    the parser and the formatter are taken as they come. *)
Section Main.

(** The state of an [HTMLParser] object. *)
Variable parser : Type.
(** [HTMLParser(entities)] *)
Variable HTMLParser : list (string * string) -> parser.
(** [p.feed(line)]: the parser after the line, or the exception raised. *)
Variable feed : parser -> string -> exn + parser.
(** [p.close()] *)
Variable close : parser -> exn + parser.
(** [p.data] *)
Variable data : parser -> content.
(** [Formatter(infile, sf).pp(tree)]: the text that ends up in the
    in-memory buffer [sf], which [sf.getvalue()] hands back, or the
    exception raised. *)
Variable pp : string -> content -> exn + string.

Definition lift {A} (r : exn + A) : M A :=
  match r with
  | inl e => raise e
  | inr a => ret a
  end.

(** The [for n, line in enumerate(inf)] loop with its [try]; [n] counts
    from 0. *)
Fixpoint feed_lines (infile : string) (p : parser) (n : Z)
  (todo : list string) : M parser :=
  match todo with
  | [] => ret p
  | line :: rest =>
      match feed p line with
      | inr p' => feed_lines infile p' (n + 1) rest
      | inl (HTMLParseError lineno offset msg) =>
          stderr_write (parse_error_message infile lineno offset msg) ;;;
          sys_exit 1
      | inl (Exception repr) =>
          stderr_write (internal_error_message infile (n + 1) repr line) ;;;
          sys_exit 1
      end
  end.

Definition main (argv : list string) : M unit :=
  (* parse HTML *)
  infile <- argv_get argv 1 ;;
  text <- file_read inf infile ;;
  p <- feed_lines infile (HTMLParser entities) 0 (readlines text) ;;
  p <- lift (close p) ;;
  file_close inf ;;;
  (* generate groff *)
  s <- lift (pp infile (fix_ (data p))) ;;
  (* strip excess whitespace *)
  let s := normalize s in
  (* write groff *)
  outfile <- argv_get argv 2 ;;
  file_write_open outf outfile ;;;
  file_write outf s ;;;
  file_close outf.

(** The exit status of the process that runs [main()] as the script does. *)
Definition exit_status (o : outcome unit) : Z :=
  match o with
  | Return _ => 0
  | Exit status => status
  | Raise _ => 1
  end.

(** Feeding lines one after the other while no exception is raised: the
    parser at the end, or the number of lines that went through, the line
    that did not, and the exception. *)
Fixpoint feed_all (p : parser) (fed : nat) (todo : list string)
  : (nat * string * exn) + parser :=
  match todo with
  | [] => inr p
  | line :: rest =>
      match feed p line with
      | inr p' => feed_all p' (S fed) rest
      | inl e => inl (fed, line, e)
      end
  end.

End Main.

(** The line written to the error stream for an exception raised by
    [feed] after [fed] lines went through. *)
Definition diagnostic (infile : string) (fed : nat) (line : string)
  (e : exn) : string :=
  match e with
  | HTMLParseError lineno offset msg =>
      parse_error_message infile lineno offset msg
  | Exception repr =>
      internal_error_message infile (Z.of_nat fed + 1) repr line
  end.

(** The world after [inf = file(infile)], after [inf.close()], and at the
    end of a run that wrote [s] to [outfile]. *)
Definition opened (w : world) (infile : string) : world :=
  log (EOpen inf infile ReadMode)
      (set_handle inf (Some (infile, ReadMode)) w).

Definition read (w : world) (infile : string) : world :=
  log (EClose inf) (set_handle inf None (opened w infile)).

Definition written (w : world) (infile outfile s : string) : world :=
  log (EClose outf)
    (set_handle outf None
       (log (EWrite outf s)
          (set_file outfile s
             (log (EOpen outf outfile WriteMode)
                (set_handle outf (Some (outfile, WriteMode))
                   (set_file outfile "" (read w infile))))))).

(** *** Reading a trace *)


(** How often a file object was opened, and closed. *)
Definition opens (f : fileobj) (tr : list event) : nat :=
  List.length (filter (fun e => match e with
                                | EOpen g _ _ => fileobj_eqb g f
                                | _ => false
                                end) tr).

Definition closes (f : fileobj) (tr : list event) : nat :=
  List.length (filter (fun e => match e with
                                | EClose g => fileobj_eqb g f
                                | _ => false
                                end) tr).

(** What was written to the error stream, in order. *)
Fixpoint stderr_of (tr : list event) : list string :=
  match tr with
  | EStderr text :: tr' => text :: stderr_of tr'
  | _ :: tr' => stderr_of tr'
  | [] => []
  end.

(** *** A small parser and formatter to run [main] on examples

    The parser takes a line as one text node; it rejects the line [<<] as
    malformed and breaks on the line [</b>]. *)
Module Toy.

Definition parser : Type := list content.

Definition HTMLParser (_ : list (string * string)) : parser := [].

Definition feed (p : parser) (line : string) : exn + parser :=
  if String.eqb line ("<<" ++ String NL "")
  then inl (HTMLParseError 2 1 "malformed start tag")
  else if String.eqb line ("</b>" ++ String NL "")
  then inl (Exception "IndexError('pop from empty list',)")
  else inr (p ++ [Text line]).

Definition close (p : parser) : exn + parser := inr p.

Definition data (p : parser) : content := Nodes p.

Definition pp (_ : string) (c : content) : exn + string :=
  inr (String.concat "" (texts c)).

Definition script : list string -> M unit :=
  Driver.main parser HTMLParser feed close data pp.

(** A path of the examples with a leading [./] taken off. *)
Definition plain (p : string) : string :=
  match p with
  | String "." (String "/" p') => p'
  | _ => p
  end.

(** A process that has just started, with two files in its directory;
    there is no directory [nodir]. *)
Definition world0 (text : string) : world :=
  mkWorld (fun p => if String.eqb (plain p) "in.html" then Some text
                    else if String.eqb (plain p) "out.1" then Some "old"
                    else None)
          (fun p q => String.eqb (plain p) (plain q))
          (fun p => if prefix "nodir/" p
                    then Some (Exception "IOError(2, 'No such file or directory')")
                    else None)
          (fun _ => None) [].

Definition argv0 : list string := ["g.html2man.py"; "in.html"; "out.1"].

End Toy.

End Driver.

(* ================================================================== *)
(** * Properties of the filter *)

Module TreeTheory.

Import Tree.

Lemma attr_eqb_eq (a b : attr) : attr_eqb a b = true <-> a = b.
Proof.
  destruct a as [n1 [v1|]], b as [n2 [v2|]]; unfold attr_eqb; simpl;
    rewrite andb_true_iff, ?String.eqb_eq;
    split; intros H; try (destruct H; subst; reflexivity);
    try (inversion H; subst; auto); try (destruct H; discriminate).
Qed.

Lemma py_in_In (x : attr) (attrs : list attr) :
  py_in x attrs = true <-> In x attrs.
Proof.
  unfold py_in. rewrite existsb_exists. split.
  - intros [y [Hy E]]. apply attr_eqb_eq in E. now subst.
  - intros H. exists x. split; [assumption | now apply attr_eqb_eq].
Qed.

Lemma is_toc_iff (tag : string) (attrs : list attr) :
  is_toc tag attrs = true <-> tag = "div" /\ In ("class", Some "toc") attrs.
Proof.
  unfold is_toc. now rewrite andb_true_iff, String.eqb_eq, py_in_In.
Qed.

Lemma fix_Nodes (items : list content) :
  fix_ (Nodes items) = Nodes (fix_items items).
Proof. reflexivity. Qed.

Lemma fix_items_app (l1 l2 : list content) :
  fix_items (l1 ++ l2) = fix_items l1 ++ fix_items l2.
Proof. unfold fix_items. apply flat_map_app. Qed.

Lemma fix_items_cons (x : content) (l : list content) :
  fix_items (x :: l) = filter is_not_None [fix_ x] ++ fix_items l.
Proof. reflexivity. Qed.

Lemma fix_items_filter_map (items : list content) :
  fix_items items = filter is_not_None (map fix_ items).
Proof.
  induction items as [|x l IH]; [reflexivity|].
  rewrite fix_items_cons, IH. simpl. now destruct (is_not_None (fix_ x)).
Qed.

(** An item whose filtered form is [None] leaves no trace in its list. *)
Lemma fix_items_drop (before after : list content) (x : content) :
  fix_ x = PyNone ->
  fix_items (before ++ x :: after) = fix_items (before ++ after).
Proof.
  intros Hx. rewrite !fix_items_app, fix_items_cons, Hx. reflexivity.
Qed.

Lemma fix_items_congr (before after : list content) (x y : content) :
  fix_ x = fix_ y ->
  fix_items (before ++ x :: after) = fix_items (before ++ y :: after).
Proof.
  intros E. now rewrite !fix_items_app, !fix_items_cons, E.
Qed.

(** The filter never answers with a table-of-contents [div], and leaves
    none below what it answers with. *)
Lemma fix_toc_free (c : content) : has_toc (fix_ c) = false.
Proof.
  induction c as [tag attrs body IH | items IH | s | ] using content_induction;
    try reflexivity.
  - simpl. destruct (is_toc tag attrs) eqn:E; [reflexivity|].
    simpl. now rewrite E, IH.
  - rewrite fix_Nodes. simpl. induction IH as [|x l Hx _ IHl]; [reflexivity|].
    rewrite fix_items_cons. simpl.
    destruct (is_not_None (fix_ x)); simpl; [rewrite Hx|]; exact IHl.
Qed.

(** A list whose items filter to what the filter leaves alone filters to
    such a list. *)
Lemma fix_items_fixed (l : list content) :
  Forall (fun x => fix_ (fix_ x) = fix_ x) l ->
  fix_items (fix_items l) = fix_items l.
Proof.
  induction 1 as [|x l Hx _ IH]; [reflexivity|].
  rewrite fix_items_cons, fix_items_app, IH. f_equal.
  simpl. destruct (is_not_None (fix_ x)) eqn:E; [|reflexivity].
  rewrite fix_items_cons, Hx. simpl. now rewrite E.
Qed.

Lemma fix_plug_unplug (p : position) (d : content) :
  fix_ d = PyNone -> fix_ (plug p d) = fix_ (unplug p).
Proof.
  intros Hd. induction p as [before after | tag attrs p IH | before p IH after].
  - simpl plug. simpl unplug. rewrite !fix_Nodes. f_equal.
    now apply fix_items_drop.
  - simpl. now rewrite IH.
  - simpl plug. simpl unplug. rewrite !fix_Nodes. f_equal.
    now apply fix_items_congr.
Qed.

(** C1. A [div] element whose attributes contain the pair [('class',
    'toc')] is dropped with everything below it.  Alone it filters to
    [None]; as a child at any position of a document, however deep, the
    filtered document is the one obtained by filtering the document with
    that child deleted, so neither the child nor any text of its subtree
    is in the output, and whatever else is in the document is there as if
    the child had never been; among its siblings, those before and those
    after are filtered on their own and keep their order; and no such
    [div] is left anywhere in a filtered tree. *)
Theorem fix_drops_toc (tag : string) (attrs : list attr) (body : content)
  (Htag : tag = "div") (Hattrs : In ("class", Some "toc") attrs) :
  fix_ (Element tag attrs body) = PyNone
  /\ (forall p : position,
        fix_ (plug p (Element tag attrs body)) = fix_ (unplug p)
        /\ texts (fix_ (plug p (Element tag attrs body)))
           = texts (fix_ (unplug p)))
  /\ (forall before after : list content,
        fix_ (Nodes (before ++ Element tag attrs body :: after))
        = Nodes (fix_items before ++ fix_items after))
  /\ (forall doc : content, has_toc (fix_ doc) = false).
Proof.
  assert (Hd : fix_ (Element tag attrs body) = PyNone).
  { simpl. replace (is_toc tag attrs) with true; [reflexivity|].
    symmetry. now apply is_toc_iff. }
  split; [exact Hd|]. split; [|split].
  - intros p. rewrite (fix_plug_unplug p _ Hd). split; reflexivity.
  - intros before after.
    rewrite fix_Nodes, (fix_items_drop before after _ Hd), fix_items_app.
    reflexivity.
  - exact fix_toc_free.
Qed.

(** A table of contents two elements deep, between two paragraphs. *)
Lemma fix_drops_toc_witness :
  fix_ (Nodes [Element "p" [] (Nodes [Text "before"]);
               Element "div" [("id", Some "main")]
                 (Nodes [Element "div" [("id", Some "x"); ("class", Some "toc")]
                           (Nodes [Element "ul" [] (Nodes [Text "A"])]);
                         Text "kept"]);
               Element "p" [] (Nodes [Text "after"])])
  = Nodes [Element "p" [] (Nodes [Text "before"]);
           Element "div" [("id", Some "main")] (Nodes [Text "kept"]);
           Element "p" [] (Nodes [Text "after"])].
Proof.
  pose proof (fix_drops_toc "div" [("id", Some "x"); ("class", Some "toc")]
                (Nodes [Element "ul" [] (Nodes [Text "A"])])
                eq_refl (or_intror (or_introl eq_refl))) as [_ [H _]].
  destruct (H (InItem [Element "p" [] (Nodes [Text "before"])]
                 (InElement "div" [("id", Some "main")]
                    (Here [] [Text "kept"]))
                 [Element "p" [] (Nodes [Text "after"])])) as [E _].
  simpl plug in E. simpl unplug in E. rewrite E. reflexivity.
Defined.

(** C2. An element that is not a [div] with the pair [('class', 'toc')]
    is kept with its tag and its attributes as they are and its body
    filtered; a list is filtered item by item, the items that filter to
    [None] are left out and the others stay in their order; text is left
    alone. *)
Theorem fix_keeps_rest (tag : string) (attrs : list attr) (body : content)
  (items : list content) (s : string)
  (Hnot : ~ (tag = "div" /\ In ("class", Some "toc") attrs)) :
  fix_ (Element tag attrs body) = Element tag attrs (fix_ body)
  /\ fix_ (Nodes items) = Nodes (filter is_not_None (map fix_ items))
  /\ fix_ (Text s) = Text s.
Proof.
  split; [|split].
  - simpl. destruct (is_toc tag attrs) eqn:E; [|reflexivity].
    apply is_toc_iff in E. contradiction.
  - now rewrite fix_Nodes, fix_items_filter_map.
  - reflexivity.
Qed.

Lemma fix_keeps_rest_witness :
  fix_ (Element "div" [("class", Some "note")] (Nodes [Text "x"]))
  = Element "div" [("class", Some "note")] (fix_ (Nodes [Text "x"]))
  /\ fix_ (Nodes [Text "a"; Element "div" [("class", Some "toc")] PyNone; Text "b"])
     = Nodes (filter is_not_None
                (map fix_ [Text "a"; Element "div" [("class", Some "toc")] PyNone;
                           Text "b"]))
  /\ fix_ (Text "t") = Text "t".
Proof.
  apply (fix_keeps_rest "div" [("class", Some "note")] (Nodes [Text "x"])
           [Text "a"; Element "div" [("class", Some "toc")] PyNone; Text "b"] "t").
  intros [_ [H | []]]. discriminate H.
Defined.

(** C3. Filtering twice is filtering once, for a document, a node or a
    list of nodes. *)
Theorem fix_idempotent (c : content) : fix_ (fix_ c) = fix_ c.
Proof.
  induction c as [tag attrs body IH | items IH | s | ] using content_induction;
    try reflexivity.
  - simpl. destruct (is_toc tag attrs) eqn:E; [reflexivity|].
    simpl. now rewrite E, IH.
  - rewrite !fix_Nodes. f_equal. now apply fix_items_fixed.
Qed.

End TreeTheory.

(* ================================================================== *)
(** * Properties of the whitespace normaliser *)

Module ReTheory.

Import Re.
Local Open Scope string_scope.

(** *** The matcher on the shapes that occur in [blank_re] *)

Lemma rmatch_star_set_cons (cs : list ascii) (k : string -> option string)
  (c : ascii) (s : string) :
  rmatch (Star (CharSet cs)) (String c s) k =
  if mem c cs
  then match rmatch (Star (CharSet cs)) s k with
       | Some rest => Some rest
       | None => k (String c s)
       end
  else k (String c s).
Proof.
  cbn [rmatch String.length].
  destruct (mem c cs); [|reflexivity].
  replace (Nat.ltb (String.length s) (S (String.length s))) with true
    by (symmetry; apply Nat.ltb_lt; lia).
  reflexivity.
Qed.

Lemma rmatch_cat (r1 r2 : regex) (s : string) (k : string -> option string) :
  rmatch (Cat r1 r2) s k = rmatch r1 s (fun s' => rmatch r2 s' k).
Proof. reflexivity. Qed.

(** A star whose body cannot match stops at once. *)
Lemma rmatch_star_fail (r : regex) (s : string) (k : string -> option string) :
  (forall k', rmatch r s k' = None) -> rmatch (Star r) s k = k s.
Proof.
  intros H. cbn [rmatch].
  destruct (String.length s); [reflexivity|]. now rewrite H.
Qed.

Lemma mem_NL (c : ascii) : mem c [NL] = Ascii.eqb c NL.
Proof. unfold mem. simpl. apply orb_false_r. Qed.

Lemma mem_WS (c : ascii) : mem c WS = mem c ST || Ascii.eqb c NL.
Proof.
  unfold mem, WS, ST. simpl. rewrite orb_false_r.
  now rewrite <- !orb_assoc.
Qed.

Lemma mem_ST_not_NL (c : ascii) : mem c ST = true -> Ascii.eqb c NL = false.
Proof.
  destruct (Ascii.eqb_spec c NL) as [->|]; [discriminate | reflexivity].
Qed.

(** One blank line, [[ \t]*\n], does not match where the rest of the line
    is not blank or is not ended, whatever comes after in the pattern. *)
Lemma blank_line_no_match (s : string) (k : string -> option string) :
  blank_to_eol s = false ->
  rmatch (Star (CharSet ST)) s (fun s1 => rmatch (CharSet [NL]) s1 k) = None.
Proof.
  induction s as [|c s IH]; intros H; [reflexivity|].
  rewrite rmatch_star_set_cons. cbn [blank_to_eol] in H.
  assert (Hk : rmatch (CharSet [NL]) (String c s) k = None).
  { cbn [rmatch]. rewrite mem_NL.
    destruct (Ascii.eqb c NL); [discriminate | reflexivity]. }
  rewrite Hk.
  destruct (Ascii.eqb c NL); [discriminate|].
  destruct (mem c ST); [|reflexivity].
  now rewrite (IH H).
Qed.

(** The group [([ \t]*\n)*] matches nothing there. *)
Lemma blank_lines_no_match (s : string) :
  blank_to_eol s = false ->
  rmatch (Star (Cat (Star (CharSet ST)) (CharSet [NL]))) s Some = Some s.
Proof.
  intros H. apply rmatch_star_fail. intros k.
  rewrite rmatch_cat. now apply blank_line_no_match.
Qed.

(** [blank_re] at the start of a text, one character at a time. *)
Lemma match_blank_nil : match_at blank_re "" = None.
Proof. reflexivity. Qed.

Lemma match_blank_step (c : ascii) (s : string) :
  (match_at blank_re s = None -> blank_to_eol s = false) ->
  match_at blank_re (String c s) =
  if mem c WS
  then match match_at blank_re s with
       | Some rest => Some rest
       | None => if Ascii.eqb c NL then Some s else None
       end
  else None.
Proof.
  intros Hs. unfold match_at.
  change (rmatch blank_re (String c s) Some)
    with (rmatch (Star (CharSet WS)) (String c s)
            (fun s1 => rmatch (CharSet [NL]) s1
               (fun s2 => rmatch (Star (Cat (Star (CharSet ST)) (CharSet [NL]))) s2 Some))).
  change (rmatch blank_re s Some)
    with (rmatch (Star (CharSet WS)) s
            (fun s1 => rmatch (CharSet [NL]) s1
               (fun s2 => rmatch (Star (Cat (Star (CharSet ST)) (CharSet [NL]))) s2 Some))).
  rewrite rmatch_star_set_cons. cbv beta.
  assert (Hk : rmatch (CharSet [NL]) (String c s)
                 (fun s2 => rmatch (Star (Cat (Star (CharSet ST)) (CharSet [NL]))) s2 Some)
               = if Ascii.eqb c NL
                 then rmatch (Star (Cat (Star (CharSet ST)) (CharSet [NL]))) s Some
                 else None).
  { cbn [rmatch]. now rewrite mem_NL. }
  rewrite Hk. clear Hk.
  rewrite mem_WS.
  destruct (mem c ST) eqn:Est; simpl orb.
  - rewrite (mem_ST_not_NL c Est). reflexivity.
  - destruct (Ascii.eqb c NL); [|reflexivity].
    destruct (rmatch (Star (CharSet WS)) s _) eqn:E; [reflexivity|].
    apply blank_lines_no_match, Hs. exact E.
Qed.

Lemma match_blank_none (s : string) :
  match_at blank_re s = None <-> blank_to_eol s = false.
Proof.
  induction s as [|c s IH]; [split; reflexivity|].
  rewrite (match_blank_step c s (proj1 IH)), mem_WS. cbn [blank_to_eol].
  destruct (Ascii.eqb c NL) eqn:En.
  - rewrite orb_true_r. destruct (match_at blank_re s); split; discriminate.
  - rewrite orb_false_r. destruct (mem c ST); [|split; reflexivity].
    destruct (match_at blank_re s) eqn:E.
    + split; [discriminate|]. intros H. apply IH in H. discriminate.
    + split; intros _; [now apply IH | reflexivity].
Qed.

Lemma match_blank_cons (c : ascii) (s : string) :
  match_at blank_re (String c s) =
  if mem c WS
  then match match_at blank_re s with
       | Some rest => Some rest
       | None => if Ascii.eqb c NL then Some s else None
       end
  else None.
Proof. apply match_blank_step, match_blank_none. Qed.

(** What a match of [blank_re] amounts to: the text goes on where the
    match ends, the match is not empty, and of the matched characters
    [collapse] keeps one newline. *)
Lemma match_blank_some (s rest : string) :
  match_at blank_re s = Some rest ->
  String.length rest < String.length s
  /\ blank_to_eol rest = false
  /\ collapse s = String NL (collapse rest).
Proof.
  revert rest. induction s as [|c s IH]; intros rest H; [discriminate|].
  rewrite match_blank_cons in H. cbn [collapse String.length].
  destruct (mem c WS) eqn:Ews; [|discriminate]. simpl andb.
  destruct (match_at blank_re s) as [r|] eqn:E.
  - injection H as ->. destruct (IH rest eq_refl) as [Hl [Hb Hc]].
    assert (Hs : blank_to_eol s = true).
    { destruct (blank_to_eol s) eqn:B; [reflexivity|].
      apply match_blank_none in B. congruence. }
    rewrite Hs. split; [lia | split; assumption].
  - destruct (Ascii.eqb_spec c NL) as [->|]; [|discriminate].
    injection H as ->. apply match_blank_none in E. rewrite E.
    split; [lia | split; reflexivity].
Qed.

Lemma sub_loop_collapse (fuel : nat) (s : string) (b : bool) :
  String.length s < fuel ->
  sub_loop fuel blank_re (String NL "") s b = collapse s.
Proof.
  revert s b. induction fuel as [|fuel IH]; intros s b Hf; [lia|].
  cbn [sub_loop].
  destruct (match_at blank_re s) as [rest|] eqn:E.
  - destruct (match_blank_some s rest E) as [Hl [_ Hc]].
    replace (Nat.ltb (String.length rest) (String.length s)) with true
      by (symmetry; apply Nat.ltb_lt; exact Hl).
    rewrite IH by lia. rewrite Hc. reflexivity.
  - destruct s as [|c s]; [reflexivity|].
    cbn [String.length] in Hf. rewrite IH by lia.
    rewrite match_blank_cons in E. cbn [collapse].
    destruct (mem c WS); [|reflexivity]. simpl andb.
    destruct (match_at blank_re s) eqn:E'; [discriminate|].
    apply match_blank_none in E'. now rewrite E'.
Qed.

(** The substitution is [collapse]. *)
Lemma sub_blank_collapse (s : string) :
  sub blank_re (String NL "") s = collapse s.
Proof. unfold sub. apply sub_loop_collapse. lia. Qed.

(** *** [collapse] and [lstrip] *)

Lemma collapse_length (s : string) :
  String.length (collapse s) <= String.length s.
Proof.
  induction s as [|c s IH]; [apply Nat.le_refl|].
  cbn [collapse String.length].
  destruct (mem c WS && blank_to_eol s); cbn [String.length]; lia.
Qed.

Lemma blank_to_eol_collapse (s : string) :
  blank_to_eol (collapse s) = blank_to_eol s.
Proof.
  induction s as [|c s IH]; [reflexivity|].
  cbn [collapse blank_to_eol]. rewrite mem_WS.
  destruct (Ascii.eqb c NL) eqn:En.
  - rewrite orb_true_r. simpl andb.
    destruct (blank_to_eol s) eqn:B; [now rewrite IH|].
    cbn [blank_to_eol]. now rewrite En.
  - rewrite orb_false_r. destruct (mem c ST) eqn:Est; simpl andb.
    + destruct (blank_to_eol s) eqn:B; [now rewrite IH|].
      cbn [blank_to_eol]. now rewrite En, Est, IH.
    + cbn [blank_to_eol]. now rewrite En, Est.
Qed.

Lemma collapse_collapse (s : string) : collapse (collapse s) = collapse s.
Proof.
  induction s as [|c s IH]; [reflexivity|].
  cbn [collapse].
  destruct (mem c WS && blank_to_eol s) eqn:E; [exact IH|].
  cbn [collapse]. now rewrite blank_to_eol_collapse, E, IH.
Qed.


(** A text that [collapse] leaves alone is left alone from any point on. *)
Lemma collapse_fixed_tail (c : ascii) (s : string) :
  collapse (String c s) = String c s -> collapse s = s.
Proof.
  cbn [collapse]. destruct (mem c WS && blank_to_eol s).
  - intros H. pose proof (collapse_length s) as Hl.
    rewrite H in Hl. cbn [String.length] in Hl. lia.
  - now intros [= H].
Qed.

Lemma collapse_fixed_suffix (u s : string) :
  collapse (u ++ s) = u ++ s -> collapse s = s.
Proof.
  induction u as [|c u IH]; [trivial|].
  intros H. apply IH. exact (collapse_fixed_tail c _ H).
Qed.


Lemma ink_collapse (s : string) : ink (collapse s) = ink s.
Proof.
  induction s as [|c s IH]; [reflexivity|].
  cbn [collapse ink].
  destruct (mem c WS) eqn:E; simpl andb.
  - destruct (blank_to_eol s); [exact IH|]. cbn [ink]. now rewrite E.
  - cbn [ink]. now rewrite E, IH.
Qed.

Lemma lstrip_head (s : string) :
  match lstrip s with
  | String c _ => isspace c = false
  | EmptyString => True
  end.
Proof.
  induction s as [|c s IH]; [exact I|].
  cbn [lstrip]. destruct (isspace c) eqn:E; [exact IH | exact E].
Qed.

Lemma lstrip_split (s : string) :
  exists lead, s = lead ++ lstrip s /\ all_chars isspace lead = true.
Proof.
  induction s as [|c s [lead [E H]]]; [now exists ""|].
  cbn [lstrip]. destruct (isspace c) eqn:Ec.
  - exists (String c lead). cbn [append all_chars]. rewrite Ec, H.
    split; [now f_equal | reflexivity].
  - now exists "".
Qed.

Lemma lstrip_fixed (s : string) :
  match s with String c _ => isspace c = false | EmptyString => True end ->
  lstrip s = s.
Proof.
  destruct s as [|c s]; [reflexivity|]. cbn [lstrip]. now intros ->.
Qed.

Lemma lstrip_lstrip (s : string) : lstrip (lstrip s) = lstrip s.
Proof. apply lstrip_fixed, lstrip_head. Qed.

Lemma normalize_collapse (s : string) : normalize s = lstrip (collapse s).
Proof. unfold normalize. now rewrite sub_blank_collapse. Qed.

Lemma collapse_normalize (s : string) : collapse (normalize s) = normalize s.
Proof.
  rewrite normalize_collapse.
  destruct (lstrip_split (collapse s)) as [lead [E _]].
  apply (collapse_fixed_suffix lead).
  rewrite <- E. apply collapse_collapse.
Qed.

Lemma normalize_head (s : string) :
  match normalize s with
  | String c _ => isspace c = false
  | EmptyString => True
  end.
Proof. unfold normalize. apply lstrip_head. Qed.

Lemma mem_ST_isspace (c : ascii) : mem c ST = true -> isspace c = true.
Proof.
  unfold mem, ST. simpl. rewrite orb_false_r. intros H.
  apply orb_true_iff in H. destruct H as [H | H];
    apply Ascii.eqb_eq in H; subst c; reflexivity.
Qed.

Lemma lines_head (c : ascii) (s l : string) (ls : list string) :
  Ascii.eqb c NL = false -> lines (String c s) = l :: ls ->
  exists l', l = String c l'.
Proof.
  intros Hc. cbn [lines]. rewrite Hc.
  destruct (lines s) as [|l0 ls0]; intros [= <- _]; eauto.
Qed.

(** C5, as the code has it.  The step deletes every space, tab and
    newline that is followed, after spaces and tabs only, by a newline, and
    keeps every other character ([collapse]): of a run of spaces, tabs and
    newlines that holds a newline, the last newline and what follows it
    stay, so blank lines go and so do the spaces and tabs that end a line.
    Then it takes away the whitespace the text starts with, all of it and
    nothing more.  The characters other than space, tab and newline come
    through the substitution untouched. *)
Theorem normalize_in_words (T : string) :
  normalize T = lstrip (collapse T)
  /\ sub blank_re (String NL "") T = collapse T
  /\ ink (collapse T) = ink T
  /\ (exists lead, collapse T = lead ++ normalize T
                   /\ all_chars isspace lead = true)
  /\ match normalize T with
     | String c _ => isspace c = false
     | EmptyString => True
     end.
Proof.
  split; [apply normalize_collapse|].
  split; [apply sub_blank_collapse|].
  split; [apply ink_collapse|].
  split; [|apply normalize_head].
  rewrite normalize_collapse. apply lstrip_split.
Qed.

(** C5, as the claim has it, fails: a text without any blank line, whose
    first line ends in a space, does not come through unchanged. *)
Lemma normalize_touches_nonblank_lines :
  let T := "a " ++ String NL "b" in
  forallb (fun l => negb (blank_line l)) (lines T) = true
  /\ normalize T = "a" ++ String NL "b"
  /\ normalize T <> T.
Proof.
  cbv zeta. split; [reflexivity|]. split; [reflexivity|].
  vm_compute. discriminate.
Qed.

(** C6. Normalising twice is normalising once. *)
Theorem normalize_idempotent (T : string) :
  normalize (normalize T) = normalize T.
Proof.
  rewrite (normalize_collapse (normalize T)), collapse_normalize.
  unfold normalize. apply lstrip_lstrip.
Qed.

(** C7. The normalised text does not start with a newline, nor with a
    line of spaces and tabs only, ended or not: if it is not empty, its
    first character is not whitespace. *)
Theorem normalize_no_leading_blank (T : string) :
  (forall rest, normalize T <> String NL rest)
  /\ (forall l rest, normalize T = l ++ String NL rest -> blank_line l = false)
  /\ (forall l ls, lines (normalize T) = l :: ls -> normalize T <> "" ->
                   blank_line l = false)
  /\ (forall c rest, normalize T = String c rest -> isspace c = false).
Proof.
  pose proof (normalize_head T) as H.
  assert (Hc : forall c rest, normalize T = String c rest -> isspace c = false).
  { intros c rest E. now rewrite E in H. }
  assert (Hb : forall c l, isspace c = false -> blank_line (String c l) = false).
  { intros c l Hs. cbn [blank_line].
    destruct (mem c ST) eqn:E; [|reflexivity].
    apply mem_ST_isspace in E. congruence. }
  split; [|split; [|split]].
  - intros rest E. apply Hc in E. discriminate.
  - intros [|c l] rest E.
    + apply Hc in E. discriminate.
    + apply Hb, (Hc c (l ++ String NL rest)), E.
  - intros l ls E Hne. destruct (normalize T) as [|c s] eqn:En; [congruence|].
    pose proof (Hc c s eq_refl) as Hs.
    destruct (lines_head c s l ls) as [l' ->]; [|exact E|now apply Hb].
    destruct (Ascii.eqb_spec c NL) as [->|]; [discriminate | reflexivity].
  - exact Hc.
Qed.


End ReTheory.

(* ================================================================== *)
(** * Properties of the driver *)

Module DriverTheory.

Import Tree Re Driver.
Local Open Scope string_scope.

(** Counting the events of a trace that is known, case by case. *)
Ltac count_events :=
  repeat match goal with
         | |- _ /\ _ => split
         | |- _ -> _ => intro
         | |- forall _, _ => intro
         end;
  try reflexivity; try discriminate; try (cbn; lia).

Section Run.

Variable parser : Type.
Variable HTMLParser : list (string * string) -> parser.
Variable feed : parser -> string -> exn + parser.
Variable close : parser -> exn + parser.
Variable data : parser -> content.
Variable pp : string -> content -> exn + string.

Local Abbreviation run := (main parser HTMLParser feed close data pp).
Local Abbreviation feeds := (feed_all parser feed).
Local Abbreviation parsed text :=
  (feed_all parser feed (HTMLParser entities) 0 (readlines text)).

Lemma string_app_assoc (a b c : string) : (a ++ b) ++ c = a ++ (b ++ c).
Proof. induction a as [|x a IH]; [reflexivity|]. cbn [append]. now rewrite IH. Qed.

(** The loop, by the lines it gets through. *)
Lemma feed_lines_run (infile : string) (todo : list string) :
  forall (p : parser) (n : nat) (w : world),
    feed_lines parser feed infile p (Z.of_nat n) todo w =
    match feeds p n todo with
    | inr p' => (Return p', w)
    | inl (k, line, e) => (Exit 1, log (EStderr (diagnostic infile k line e)) w)
    end.
Proof.
  induction todo as [|line rest IH]; intros p n w; [reflexivity|].
  cbn [feed_lines feed_all].
  destruct (feed p line) as [[lineno offset msg | repr] | p'].
  - reflexivity.
  - reflexivity.
  - replace (Z.of_nat n + 1)%Z with (Z.of_nat (S n)) by lia. apply IH.
Qed.

(** Where the loop stops: at the line of that index, after the lines
    before it went through. *)
Lemma feed_all_stops (todo : list string) :
  forall (p : parser) (n k : nat) (line : string) (e : exn),
    feeds p n todo = inl (k, line, e) ->
    n <= k
    /\ nth_error todo (k - n) = Some line
    /\ exists p1, feeds p n (firstn (k - n) todo) = inr p1
                  /\ feed p1 line = inl e.
Proof.
  induction todo as [|l rest IH]; intros p n k line e H; [discriminate|].
  cbn [feed_all] in H. destruct (feed p l) as [e'|p'] eqn:E.
  - injection H as <- <- <-. rewrite Nat.sub_diag.
    split; [apply Nat.le_refl|]. split; [reflexivity|].
    exists p. split; [reflexivity | exact E].
  - destruct (IH p' (S n) k line e H) as [Hle [Hn [p1 [Hp1 Hf]]]].
    replace (k - n) with (S (k - S n)) by lia.
    split; [lia|]. split; [exact Hn|].
    exists p1. cbn [firstn feed_all]. rewrite E. split; assumption.
Qed.

(** Every way a run can go. *)
Lemma main_run (argv : list string) (w : world) (infile text : string) :
  nth_error argv 1 = Some infile -> fs w infile = Some text ->
  run argv w =
  match parsed text with
  | inl (k, line, e) =>
      (Exit 1, log (EStderr (diagnostic infile k line e)) (opened w infile))
  | inr p =>
      match close p with
      | inl e => (Raise e, opened w infile)
      | inr p' =>
          match pp infile (fix_ (data p')) with
          | inl e => (Raise e, read w infile)
          | inr s =>
              match nth_error argv 2 with
              | None =>
                  (Raise (Exception "IndexError('list index out of range',)"),
                   read w infile)
              | Some outfile =>
                  match write_error w outfile with
                  | Some e => (Raise e, read w infile)
                  | None =>
                      (Return tt, written w infile outfile (normalize s))
                  end
              end
          end
      end
  end.
Proof.
  intros Hargv Hfile. unfold main, argv_get.
  rewrite Hargv. unfold bind at 1. unfold ret at 1.
  unfold bind at 1. unfold file_read at 1. rewrite Hfile.
  unfold bind at 1. change 0%Z with (Z.of_nat 0). rewrite feed_lines_run.
  destruct (parsed text) as [[[k line] e] | p]; [reflexivity|].
  unfold bind at 1. unfold lift at 1.
  destruct (close p) as [e | p']; [reflexivity|].
  unfold ret at 1. unfold bind at 1. unfold file_close at 1.
  unfold bind at 1. unfold lift at 1.
  destruct (pp infile (fix_ (data p'))) as [e | s]; [reflexivity|].
  unfold ret at 1.
  destruct (nth_error argv 2) as [outfile|]; [|reflexivity].
  unfold bind at 1. unfold ret at 1. unfold bind at 1.
  unfold file_write_open at 1.
  cbn [write_error log set_handle].
  destruct (write_error w outfile) as [e|]; [reflexivity|].
  unfold bind, ret, file_write, file_close.
  cbn [handles log set_handle set_file fs fileobj_eqb].
  rewrite String.eqb_refl. reflexivity.
Qed.

Lemma trace_opened (w : world) (infile : string) :
  trace (opened w infile) = (trace w ++ [EOpen inf infile ReadMode])%list.
Proof. reflexivity. Qed.

Lemma trace_failed (w : world) (infile d : string) :
  trace (log (EStderr d) (opened w infile))
  = (trace w ++ [EOpen inf infile ReadMode; EStderr d])%list.
Proof. cbn [trace log opened set_handle]. now rewrite <- app_assoc. Qed.

Lemma trace_read (w : world) (infile : string) :
  trace (read w infile)
  = (trace w ++ [EOpen inf infile ReadMode; EClose inf])%list.
Proof. cbn [trace log read opened set_handle]. now rewrite <- app_assoc. Qed.

Lemma trace_written (w : world) (infile outfile s : string) :
  trace (written w infile outfile s)
  = (trace w ++ [EOpen inf infile ReadMode; EClose inf;
                 EOpen outf outfile WriteMode; EWrite outf s; EClose outf])%list.
Proof.
  cbn [trace log written read opened set_handle set_file].
  now rewrite <- !app_assoc.
Qed.

Lemma fs_written (w : world) (infile outfile s : string) :
  fs (written w infile outfile s) outfile = Some s.
Proof.
  cbn [fs log written set_handle set_file]. now rewrite String.eqb_refl.
Qed.

Lemma stderr_of_app (l1 l2 : list event) :
  stderr_of (l1 ++ l2)%list = (stderr_of l1 ++ stderr_of l2)%list.
Proof.
  induction l1 as [|[f p m | f t | f | t] l1 IH]; cbn [stderr_of app];
    now rewrite ?IH.
Qed.

Lemma newlines_app (a b : string) :
  newlines (a ++ b) = newlines a + newlines b.
Proof.
  induction a as [|c a IH]; [reflexivity|].
  cbn [append newlines]. rewrite IH. lia.
Qed.





(** C8. When [feed] raises on a line, that line is the one at the index
    the loop had reached, the lines before it went through, and the run
    ends in [sys.exit(1)] after writing to the error stream: for an
    [HTMLParseError], the file name, the error's line number, its offset
    and its message; for any other exception, the file name, the number of
    the line counted from 1, the exception's [repr] and the line as it was
    read. *)
Theorem main_diagnostics (argv : list string) (w : world)
  (infile text : string) (o : outcome unit) (w' : world)
  (k : nat) (line : string) (e : exn)
  (Hargv : nth_error argv 1 = Some infile)
  (Hfile : fs w infile = Some text)
  (Hrun : run argv w = (o, w'))
  (Hfail : parsed text = inl (k, line, e)) :
  nth_error (readlines text) k = Some line
  /\ (exists p, feeds (HTMLParser entities) 0 (firstn k (readlines text)) = inr p
                /\ feed p line = inl e)
  /\ o = Exit 1
  /\ stderr_of (trace w') = (stderr_of (trace w) ++
       [match e with
        | HTMLParseError lineno offset msg =>
            (infile ++ ":" ++ fmt_d lineno ++ ":" ++ fmt_d offset
               ++ ": Parse error: " ++ msg ++ String NL "")%string
        | Exception repr =>
            (infile ++ ":" ++ fmt_d (Z.of_nat (S k)) ++ ":0: Error (" ++ repr
               ++ "): " ++ line ++ String NL "")%string
        end])%list.
Proof.
  rewrite (main_run argv w infile text Hargv Hfile), Hfail in Hrun.
  injection Hrun as <- <-.
  destruct (feed_all_stops _ _ _ _ _ _ Hfail) as [_ [Hn Hp]].
  rewrite Nat.sub_0_r in Hn, Hp.
  split; [exact Hn|]. split; [exact Hp|]. split; [reflexivity|].
  rewrite trace_failed, stderr_of_app. cbn [stderr_of]. f_equal. f_equal.
  destruct e as [lineno offset msg | repr]; cbn [diagnostic]; [reflexivity|].
  unfold internal_error_message.
  now replace (Z.of_nat k + 1)%Z with (Z.of_nat (S k)) by lia.
Qed.

(** C9, as the code has it.  A run opens the input file once and the
    output file at most once.  A run that returns has closed both, each
    once, and leaves no file object open.  A run in which [feed] raises
    exits without closing the input file, which is still open at the end,
    and never opens the output file. *)
Theorem main_files (argv : list string) (w : world)
  (infile text : string) (o : outcome unit) (w' : world)
  (Hargv : nth_error argv 1 = Some infile)
  (Hfile : fs w infile = Some text)
  (Hrun : run argv w = (o, w')) :
  exists evs,
    trace w' = (trace w ++ evs)%list
    /\ opens inf evs = 1 /\ opens outf evs <= 1
    /\ (o = Return tt ->
        closes inf evs = 1 /\ opens outf evs = 1 /\ closes outf evs = 1
        /\ handles w' inf = None /\ handles w' outf = None)
    /\ (forall k line e,
          parsed text = inl (k, line, e) ->
          closes inf evs = 0 /\ opens outf evs = 0
          /\ handles w' inf = Some (infile, ReadMode)).
Proof.
  rewrite (main_run argv w infile text Hargv Hfile) in Hrun.
  destruct (parsed text) as [[[k0 line0] e0] | p0] eqn:Ep.
  { injection Hrun as <- <-. eexists. split; [apply trace_failed|].
    count_events. }
  destruct (close p0) as [e1 | p1].
  { injection Hrun as <- <-. eexists. split; [apply trace_opened|].
    count_events. }
  destruct (pp infile (fix_ (data p1))) as [e2 | s0].
  { injection Hrun as <- <-. eexists. split; [apply trace_read|].
    count_events. }
  destruct (nth_error argv 2) as [outfile|].
  - destruct (write_error w outfile) as [e3|].
    + injection Hrun as <- <-. eexists. split; [apply trace_read|].
      count_events.
    + injection Hrun as <- <-. eexists. split; [apply trace_written|].
      count_events.
  - injection Hrun as <- <-. eexists. split; [apply trace_read|].
    count_events.
Qed.

End Run.



(** A run on a file whose second line breaks the parser. *)
Lemma main_diagnostics_witness :
  let r := Toy.script Toy.argv0
             (Toy.world0 ("a" ++ String NL ("</b>" ++ String NL "c"))) in
  fst r = Exit 1
  /\ stderr_of (trace (snd r))
     = ["in.html:2:0: Error (IndexError('pop from empty list',)): </b>"
          ++ String NL (String NL "")].
Proof.
  cbv zeta. unfold Toy.script.
  destruct (main_diagnostics Toy.parser Toy.HTMLParser Toy.feed Toy.close
              Toy.data Toy.pp Toy.argv0
              (Toy.world0 ("a" ++ String NL ("</b>" ++ String NL "c")))
              "in.html" ("a" ++ String NL ("</b>" ++ String NL "c"))
              _ _ 1 ("</b>" ++ String NL "")
              (Exception "IndexError('pop from empty list',)")
              eq_refl eq_refl (surjective_pairing _) eq_refl)
    as [_ [_ [H3 H4]]].
  split; [exact H3 | exact H4].
Defined.

Lemma main_files_witness :
  let r := Toy.script Toy.argv0
             (Toy.world0 (String NL (" a  " ++ String NL (String NL "c")))) in
  exists evs,
    trace (snd r) = evs
    /\ opens inf evs = 1 /\ closes inf evs = 1
    /\ opens outf evs = 1 /\ closes outf evs = 1
    /\ handles (snd r) inf = None /\ handles (snd r) outf = None.
Proof.
  cbv zeta. unfold Toy.script.
  destruct (main_files Toy.parser Toy.HTMLParser Toy.feed Toy.close
              Toy.data Toy.pp Toy.argv0
              (Toy.world0 (String NL (" a  " ++ String NL (String NL "c"))))
              "in.html" (String NL (" a  " ++ String NL (String NL "c")))
              _ _ eq_refl eq_refl (surjective_pairing _))
    as [evs [Ht [Ho [_ [Hok _]]]]].
  destruct (Hok eq_refl) as [H1 [H2 [H3 [H4 H5]]]].
  exists evs. repeat split; assumption.
Defined.

(** C9, as the claim has it, fails: after a parse failure the input file
    is still open when the process exits, and was never closed. *)
Lemma main_leaves_input_open :
  let r := Toy.script Toy.argv0
             (Toy.world0 ("a" ++ String NL ("<<" ++ String NL "c"))) in
  fst r = Exit 1
  /\ handles (snd r) inf = Some ("in.html", ReadMode)
  /\ closes inf (trace (snd r)) = 0
  /\ ~ In (EClose inf) (trace (snd r)).
Proof.
  cbv zeta. split; [reflexivity|]. split; [reflexivity|].
  split; [reflexivity|].
  vm_compute. intros [H | [H | []]]; discriminate H.
Qed.

End DriverTheory.

(* ================================================================== *)
(** * More on the filter *)

Module TreeMore.

Import Tree TreeTheory.

Lemma subseq_refl {A : Type} (l : list A) : subseq l l.
Proof. induction l; constructor; assumption. Qed.

Lemma subseq_nil_l {A : Type} (l : list A) : subseq [] l.
Proof. induction l; constructor; assumption. Qed.

Lemma subseq_app {A : Type} (a1 a2 b1 b2 : list A) :
  subseq a1 a2 -> subseq b1 b2 -> subseq (a1 ++ b1) (a2 ++ b2).
Proof.
  intros Ha Hb. induction Ha; simpl; [assumption | |]; constructor; assumption.
Qed.

Lemma texts_one (y : content) :
  flat_map texts (filter is_not_None [y]) = texts y.
Proof. destruct y; simpl; rewrite ?app_nil_r; reflexivity. Qed.

Lemma texts_fix_items (l : list content) :
  flat_map texts (fix_items l) = flat_map (fun x => texts (fix_ x)) l.
Proof.
  induction l as [|x l IH]; [reflexivity|].
  rewrite fix_items_cons, flat_map_app, texts_one, IH. reflexivity.
Qed.

Lemma fix_items_length (l : list content) :
  List.length (fix_items l) <= List.length l.
Proof.
  induction l as [|x l IH]; [apply Nat.le_refl|].
  rewrite fix_items_cons, length_app. simpl.
  destruct (is_not_None (fix_ x)); simpl; lia.
Qed.

(** X1. The filter only takes text away: the text of the filtered tree
    is the text of the tree with some pieces left out, the others in their
    order. *)
Theorem fix_texts_subseq (c : content) :
  subseq (texts (fix_ c)) (texts c).
Proof.
  induction c as [tag attrs body IH | items IH | s | ] using content_induction.
  - simpl. destruct (is_toc tag attrs); [apply subseq_nil_l | exact IH].
  - rewrite fix_Nodes. cbn [texts]. rewrite texts_fix_items.
    induction IH as [|x l Hx _ IHl]; [constructor|].
    simpl. now apply subseq_app.
  - apply subseq_refl.
  - apply subseq_refl.
Qed.

(** X2. A tree without a table-of-contents [div] keeps all of its text,
    also when the filter takes [None] items out of its lists. *)
Theorem fix_keeps_text (c : content) (Hfree : has_toc c = false) :
  texts (fix_ c) = texts c.
Proof.
  induction c as [tag attrs body IH | items IH | s | ] using content_induction;
    try reflexivity.
  - simpl in Hfree. apply orb_false_iff in Hfree. destruct Hfree as [Ht Hb].
    simpl. rewrite Ht. simpl. now apply IH.
  - rewrite fix_Nodes. cbn [texts]. rewrite texts_fix_items.
    simpl in Hfree. induction IH as [|x l Hx _ IHl]; [reflexivity|].
    simpl in Hfree. apply orb_false_iff in Hfree. destruct Hfree as [H1 H2].
    simpl. now rewrite (Hx H1), (IHl H2).
Qed.

Lemma fix_keeps_text_witness :
  texts (fix_ (Nodes [Text "a"; PyNone;
                      Element "div" [("class", Some "tocs")] (Nodes [Text "b"])]))
  = ["a"; "b"].
Proof.
  rewrite (fix_keeps_text
             (Nodes [Text "a"; PyNone;
                     Element "div" [("class", Some "tocs")] (Nodes [Text "b"])])
             eq_refl).
  reflexivity.
Defined.

(** X3. In a filtered tree no list, at any depth, has [None] among its
    items: the items the parser left as [None] go as well. *)
Theorem fix_no_none_items (c : content) : none_items (fix_ c) = false.
Proof.
  induction c as [tag attrs body IH | items IH | s | ] using content_induction;
    try reflexivity.
  - simpl. destruct (is_toc tag attrs); [reflexivity | exact IH].
  - rewrite fix_Nodes. cbn [none_items].
    induction IH as [|x l Hx _ IHl]; [reflexivity|].
    rewrite fix_items_cons. simpl.
    destruct (is_not_None (fix_ x)) eqn:E; simpl; [|exact IHl].
    now rewrite E, Hx.
Qed.

(** X4. The trees the filter leaves as they are are those without a
    table-of-contents [div] and without a [None] item in a list. *)
Theorem fix_fixed_points (c : content) :
  fix_ c = c <-> has_toc c = false /\ none_items c = false.
Proof.
  induction c as [tag attrs body IH | items IH | s | ] using content_induction;
    try (split; [split|]; reflexivity).
  - simpl. destruct (is_toc tag attrs) eqn:E; simpl.
    + split; [discriminate | intros [H _]; discriminate H].
    + rewrite <- IH. split; [intros [= H] | intros H; f_equal]; exact H.
  - rewrite fix_Nodes. cbn [has_toc none_items].
    assert (Hl : fix_items items = items
                 <-> existsb has_toc items = false
                     /\ existsb (fun x => negb (is_not_None x) || none_items x)
                          items = false).
    { induction IH as [|x l Hx _ IHl]; [split; [split|]; reflexivity|].
      rewrite fix_items_cons. cbn [existsb]. rewrite !orb_false_iff.
      split.
      - simpl. destruct (is_not_None (fix_ x)) eqn:E; simpl.
        + intros [= H1 H2]. destruct (proj1 Hx H1) as [Ha Hb].
          destruct (proj1 IHl H2) as [Hc Hd]. rewrite H1 in E.
          rewrite E. repeat split; assumption.
        + intros H. pose proof (fix_items_length l) as Hlen.
          rewrite H in Hlen. simpl in Hlen. lia.
      - intros [[H1 H2] [[H3 H5] H4]]. apply negb_false_iff in H3.
        assert (Ex : fix_ x = x) by (apply Hx; split; assumption).
        rewrite Ex. simpl. rewrite H3. simpl. f_equal.
        apply IHl. split; assumption. }
    rewrite <- Hl. split; [intros [= H] | intros H; f_equal]; exact H.
Qed.

End TreeMore.

(* ================================================================== *)
(** * More on the whitespace normaliser *)

Module ReMore.

Import Tree Re ReTheory TreeMore.
Local Open Scope string_scope.

Lemma collapse_fixed_iff (s : string) : collapse s = s <-> tidy s = true.
Proof.
  induction s as [|c s IH]; [split; reflexivity|].
  cbn [collapse tidy]. destruct (mem c WS && blank_to_eol s) eqn:E; simpl.
  - split; [|discriminate]. intros H.
    pose proof (collapse_length s) as Hl. rewrite H in Hl.
    cbn [String.length] in Hl. lia.
  - rewrite <- IH. split; [intros [= H] | intros H; f_equal]; exact H.
Qed.

Lemma blank_to_eol_head (c : ascii) (s : string) :
  isspace c = false -> blank_to_eol (String c s) = false.
Proof.
  intros H. cbn [blank_to_eol].
  destruct (Ascii.eqb_spec c NL) as [->|]; [discriminate H|].
  destruct (mem c ST) eqn:E; [|reflexivity].
  apply mem_ST_isspace in E. congruence.
Qed.

(** X5. The texts the normaliser leaves as they are are those in which
    no space, tab or newline is followed, after spaces and tabs only, by a
    newline, and that do not start with whitespace. *)
Theorem normalize_fixed_points (T : string) :
  normalize T = T
  <-> tidy T = true
      /\ match T with
         | String c _ => isspace c = false
         | EmptyString => True
         end.
Proof.
  split.
  - intros H. split.
    + apply collapse_fixed_iff. rewrite <- H at 1 2. apply collapse_normalize.
    + rewrite <- H. apply normalize_head.
  - intros [Ht Hh]. rewrite normalize_collapse.
    apply collapse_fixed_iff in Ht. rewrite Ht. now apply lstrip_fixed.
Qed.

Lemma blank_line_first (s l r : string) (rs : list string) :
  lines s = l :: r :: rs -> blank_line l = blank_to_eol s.
Proof.
  revert l r rs. induction s as [|c s IH]; intros l r rs H; [discriminate|].
  cbn [lines] in H. cbn [blank_to_eol].
  destruct (Ascii.eqb c NL) eqn:En.
  - now injection H as <- _.
  - destruct (lines s) as [|l0 ls0] eqn:El; [discriminate|].
    injection H as <- ->. cbn [blank_line].
    rewrite (IH l0 r rs eq_refl). now destruct (mem c ST).
Qed.

Lemma tidy_lines (s : string) :
  tidy s = true ->
  forall l ls, lines s = l :: ls ->
               Forall (fun x => blank_line x = false) (removelast ls).
Proof.
  induction s as [|c s IH]; intros Ht l ls H.
  - injection H as <- <-. constructor.
  - cbn [tidy] in Ht. apply andb_true_iff in Ht. destruct Ht as [Hc Hs].
    cbn [lines] in H. destruct (Ascii.eqb c NL) eqn:En.
    + injection H as <- <-.
      destruct (lines s) as [|l1 [|r rs]] eqn:El; [constructor | constructor |].
      change (removelast (l1 :: r :: rs)) with (l1 :: removelast (r :: rs)).
      constructor; [|exact (IH Hs l1 (r :: rs) eq_refl)].
      rewrite (blank_line_first s l1 r rs El).
      apply negb_true_iff in Hc. rewrite mem_WS, En, orb_true_r in Hc.
      exact Hc.
    + destruct (lines s) as [|l0 ls0] eqn:El.
      * injection H as <- <-. constructor.
      * injection H as <- <-. exact (IH Hs l0 ls0 eq_refl).
Qed.

(** X6. The normalised text has no blank line: each of its lines that is
    ended by a newline holds a character other than space and tab. *)
Theorem normalize_no_blank_line (T : string) :
  Forall (fun l => blank_line l = false) (removelast (lines (normalize T))).
Proof.
  pose proof (collapse_normalize T) as Hc. apply collapse_fixed_iff in Hc.
  pose proof (normalize_head T) as Hh.
  destruct (lines (normalize T)) as [|l [|r rs]] eqn:El;
    [constructor | constructor |].
  change (removelast (l :: r :: rs)) with (l :: removelast (r :: rs)).
  constructor; [|exact (tidy_lines _ Hc l (r :: rs) El)].
  rewrite (blank_line_first _ l r rs El).
  destruct (normalize T) as [|c s]; [reflexivity|].
  now apply blank_to_eol_head.
Qed.

Lemma collapse_all_space (s : string) :
  all_chars isspace s = true -> all_chars isspace (collapse s) = true.
Proof.
  induction s as [|c s IH]; [reflexivity|].
  cbn [all_chars collapse]. intros H. apply andb_true_iff in H.
  destruct H as [Hc Hs].
  destruct (mem c WS && blank_to_eol s); [now apply IH|].
  cbn [all_chars]. now rewrite Hc, IH.
Qed.

Lemma lstrip_all_space (s : string) :
  all_chars isspace s = true -> lstrip s = "".
Proof.
  induction s as [|c s IH]; [reflexivity|].
  cbn [all_chars lstrip]. intros H. apply andb_true_iff in H.
  destruct H as [-> Hs]. now apply IH.
Qed.

(** X7. A text of whitespace only, the empty text among them, is
    normalised to the empty text. *)
Theorem normalize_whitespace_only (T : string)
  (Hws : all_chars isspace T = true) :
  normalize T = "".
Proof.
  rewrite normalize_collapse.
  now apply lstrip_all_space, collapse_all_space.
Qed.

Lemma normalize_whitespace_only_witness :
  normalize (" " ++ String NL (String TAB (String NL " "))) = "".
Proof.
  apply (normalize_whitespace_only
           (" " ++ String NL (String TAB (String NL " ")))).
  reflexivity.
Defined.

Lemma no_newline_tidy (s : string) :
  all_chars (fun c => negb (Ascii.eqb c NL)) s = true ->
  blank_to_eol s = false /\ tidy s = true.
Proof.
  induction s as [|c s IH]; [split; reflexivity|].
  cbn [all_chars blank_to_eol tidy]. intros H.
  apply andb_true_iff in H. destruct H as [Hc Hs].
  apply negb_true_iff in Hc. destruct (IH Hs) as [Hb Ht].
  rewrite Hc, Hb, Ht, andb_false_r. split; [|reflexivity].
  now destruct (mem c ST).
Qed.

(** X8. On a text without a newline the substitution changes nothing,
    and normalising is [lstrip]: the spaces and tabs that end a text
    without a final newline stay. *)
Theorem normalize_one_line (T : string)
  (Hnl : all_chars (fun c => negb (Ascii.eqb c NL)) T = true) :
  sub blank_re (String NL "") T = T /\ normalize T = lstrip T.
Proof.
  destruct (no_newline_tidy T Hnl) as [_ Ht].
  apply collapse_fixed_iff in Ht.
  rewrite normalize_collapse, sub_blank_collapse, Ht. split; reflexivity.
Qed.

Lemma normalize_one_line_witness :
  normalize ("  a b " ++ String TAB "") = "a b " ++ String TAB "".
Proof.
  destruct (normalize_one_line ("  a b " ++ String TAB "") eq_refl) as [_ H].
  rewrite H. reflexivity.
Defined.

(** X9. Where [blank_re] matches.  It matches at the start of a text
    exactly when the text starts with spaces, tabs and newlines of which
    one is a newline, and the match is the longest there is: it runs up to
    the last newline that only spaces, tabs and newlines come before (the
    group [([ \t]*\n)*] is left nothing to take), so a match is never
    empty. *)
Theorem match_blank_shape (s rest : string) :
  match_at blank_re s = Some rest
  <-> exists m, s = m ++ String NL rest
                /\ all_chars (fun c => mem c WS) m = true
                /\ blank_to_eol rest = false.
Proof.
  split.
  - revert rest. induction s as [|c s IH]; intros rest H; [discriminate|].
    rewrite match_blank_cons in H.
    destruct (mem c WS) eqn:Ews; [|discriminate].
    destruct (match_at blank_re s) as [r|] eqn:E.
    + injection H as ->. destruct (IH rest eq_refl) as [m [Hs [Hm Hb]]].
      exists (String c m). cbn [append all_chars]. rewrite Ews, Hm, <- Hs.
      repeat split. exact Hb.
    + destruct (Ascii.eqb_spec c NL) as [->|]; [|discriminate].
      injection H as ->. exists "". repeat split.
      now apply match_blank_none.
  - intros [m [-> [Hm Hb]]]. induction m as [|c m IH].
    + cbn [append]. rewrite match_blank_cons.
      apply match_blank_none in Hb. now rewrite Hb.
    + cbn [all_chars] in Hm. apply andb_true_iff in Hm.
      destruct Hm as [Hc Hm]. cbn [append].
      rewrite match_blank_cons, Hc, (IH Hm). reflexivity.
Qed.

Lemma subseq_trans {A : Type} (l1 l2 l3 : list A) :
  subseq l1 l2 -> subseq l2 l3 -> subseq l1 l3.
Proof.
  intros H12 H23. revert l1 H12.
  induction H23 as [|x l2 l3 _ IH | x l2 l3 _ IH]; intros l1 H12.
  - exact H12.
  - inversion H12; subst; constructor; now apply IH.
  - constructor. now apply IH.
Qed.

Lemma collapse_subseq (s : string) :
  subseq (list_ascii_of_string (collapse s)) (list_ascii_of_string s).
Proof.
  induction s as [|c s IH]; [constructor|].
  cbn [collapse list_ascii_of_string].
  destruct (mem c WS && blank_to_eol s); constructor; exact IH.
Qed.

Lemma lstrip_subseq (s : string) :
  subseq (list_ascii_of_string (lstrip s)) (list_ascii_of_string s).
Proof.
  induction s as [|c s IH]; [constructor|].
  cbn [lstrip]. destruct (isspace c); [|apply subseq_refl].
  cbn [list_ascii_of_string]. constructor. exact IH.
Qed.

(** X10. Normalising only takes characters away: the characters of the
    normalised text are characters of the text, in their order; none is
    added, replaced or moved. *)
Theorem normalize_subseq (T : string) :
  subseq (list_ascii_of_string (normalize T)) (list_ascii_of_string T)
  /\ String.length (normalize T) <= String.length T.
Proof.
  assert (H : subseq (list_ascii_of_string (normalize T))
                     (list_ascii_of_string T)).
  { rewrite normalize_collapse.
    exact (subseq_trans _ _ _ (lstrip_subseq _) (collapse_subseq T)). }
  split; [exact H|].
  assert (Hlen : forall (A : Type) (a b : list A),
             subseq a b -> List.length a <= List.length b).
  { intros A a b Hs. induction Hs; simpl; lia. }
  apply Hlen in H.
  assert (Hl : forall s, List.length (list_ascii_of_string s) = String.length s).
  { intros s. induction s as [|c s IH]; simpl; [reflexivity | now rewrite IH]. }
  now rewrite !Hl in H.
Qed.

End ReMore.

(* ================================================================== *)
(** * More on the driver *)

Module DriverMore.

Import Tree Re Driver TreeTheory ReTheory DriverTheory ReMore.
Local Open Scope string_scope.

Section Run.

Variable parser : Type.
Variable HTMLParser : list (string * string) -> parser.
Variable feed : parser -> string -> exn + parser.
Variable close : parser -> exn + parser.
Variable data : parser -> content.
Variable pp : string -> content -> exn + string.

Local Abbreviation run := (main parser HTMLParser feed close data pp).
Local Abbreviation parsed text :=
  (feed_all parser feed (HTMLParser entities) 0 (readlines text)).
Local Abbreviation run_cases :=
  (main_run parser HTMLParser feed close data pp).

(** X11. Without an input argument, or when the input file does not
    exist, the exception goes up uncaught before anything is done: no
    diagnostic of the script's own, no file object, no file touched. *)
Theorem main_input_unavailable (argv : list string) (w : world)
  (Hin : nth_error argv 1 = None
         \/ exists infile, nth_error argv 1 = Some infile
                           /\ fs w infile = None) :
  exists e, run argv w = (Raise e, w)
            /\ exit_status (fst (run argv w)) = 1%Z.
Proof.
  unfold main, argv_get. destruct Hin as [H | [infile [H Hf]]]; rewrite H.
  - eexists. split; reflexivity.
  - unfold bind at 1. unfold ret at 1. unfold bind at 1.
    unfold file_read at 1. rewrite Hf.
    eexists. unfold bind, ret, file_read. rewrite Hf. split; reflexivity.
Qed.

(** X12. An exception raised by [p.close()], an [HTMLParseError]
    included, is not caught: the run ends with it, without the diagnostic
    the loop writes and without [sys.exit]; the input file is left open and
    no file has changed. *)
Theorem main_close_raises (argv : list string) (w : world)
  (infile text : string) (p : parser) (e : exn)
  (Hargv : nth_error argv 1 = Some infile)
  (Hfile : fs w infile = Some text)
  (Hparsed : parsed text = inr p)
  (Hclose : close p = inl e) :
  exists w',
    run argv w = (Raise e, w')
    /\ stderr_of (trace w') = stderr_of (trace w)
    /\ fs w' = fs w
    /\ handles w' inf = Some (infile, ReadMode)
    /\ trace w' = (trace w ++ [EOpen inf infile ReadMode])%list.
Proof.
  exists (opened w infile).
  rewrite (run_cases argv w infile text Hargv Hfile), Hparsed, Hclose.
  split; [reflexivity|]. split; [|repeat split].
  rewrite trace_opened, stderr_of_app. cbn [stderr_of]. apply app_nil_r.
Qed.

(** X13. An exception raised by the formatter ends the run uncaught:
    the input file has been closed by then, nothing is written to the
    error stream by the script, and the destination is neither opened nor
    changed. *)
Theorem main_formatter_raises (argv : list string) (w : world)
  (infile text : string) (p p' : parser) (e : exn)
  (Hargv : nth_error argv 1 = Some infile)
  (Hfile : fs w infile = Some text)
  (Hparsed : parsed text = inr p)
  (Hclose : close p = inr p')
  (Hpp : pp infile (fix_ (data p')) = inl e) :
  exists w',
    run argv w = (Raise e, w')
    /\ stderr_of (trace w') = stderr_of (trace w)
    /\ fs w' = fs w
    /\ handles w' inf = None
    /\ trace w' = (trace w ++ [EOpen inf infile ReadMode; EClose inf])%list.
Proof.
  exists (read w infile).
  rewrite (run_cases argv w infile text Hargv Hfile), Hparsed, Hclose, Hpp.
  split; [reflexivity|]. split; [|split; [reflexivity|split; [reflexivity|]]].
  - rewrite trace_read, stderr_of_app. cbn [stderr_of]. apply app_nil_r.
  - apply trace_read.
Qed.

(** X14. The output argument is read last: when it is missing, the
    input is still read, parsed and formatted in full and the input file
    closed, and only then the run ends in an [IndexError], with no file
    changed. *)
Theorem main_output_argument_missing (argv : list string) (w : world)
  (infile text s : string) (p p' : parser)
  (Hargv : nth_error argv 1 = Some infile)
  (Hfile : fs w infile = Some text)
  (Hparsed : parsed text = inr p)
  (Hclose : close p = inr p')
  (Hpp : pp infile (fix_ (data p')) = inr s)
  (Hout : nth_error argv 2 = None) :
  exists w',
    run argv w
    = (Raise (Exception "IndexError('list index out of range',)"), w')
    /\ fs w' = fs w
    /\ handles w' inf = None
    /\ trace w' = (trace w ++ [EOpen inf infile ReadMode; EClose inf])%list.
Proof.
  exists (read w infile).
  rewrite (run_cases argv w infile text Hargv Hfile), Hparsed, Hclose, Hpp,
    Hout.
  split; [reflexivity|]. split; [reflexivity|]. split; [reflexivity|].
  apply trace_read.
Qed.


(** X16. Exit status 0 is a promise: the run then fed every line,
    closed the parser, formatted, wrote the normalised text to the
    destination and left no file object open. *)
Theorem main_exit_zero (argv : list string) (w : world)
  (infile text : string) (o : outcome unit) (w' : world)
  (Hargv : nth_error argv 1 = Some infile)
  (Hfile : fs w infile = Some text)
  (Hrun : run argv w = (o, w'))
  (Hzero : exit_status o = 0%Z) :
  exists p p' s outfile,
    parsed text = inr p /\ close p = inr p'
    /\ pp infile (fix_ (data p')) = inr s
    /\ nth_error argv 2 = Some outfile
    /\ fs w' outfile = Some (normalize s)
    /\ handles w' inf = None /\ handles w' outf = None.
Proof.
  rewrite (run_cases argv w infile text Hargv Hfile) in Hrun.
  destruct (parsed text) as [[[k line] e] | p] eqn:Ep.
  { injection Hrun as <- <-. discriminate Hzero. }
  destruct (close p) as [e | p'] eqn:Ec.
  { injection Hrun as <- <-. discriminate Hzero. }
  destruct (pp infile (fix_ (data p'))) as [e | s] eqn:Epp.
  { injection Hrun as <- <-. discriminate Hzero. }
  destruct (nth_error argv 2) as [outfile|] eqn:Eo.
  - destruct (write_error w outfile) as [e|].
    { injection Hrun as <- <-. discriminate Hzero. }
    injection Hrun as <- <-. exists p, p', s, outfile.
    repeat split; try reflexivity; try assumption. apply fs_written.
  - injection Hrun as <- <-. discriminate Hzero.
Qed.


Lemma readlines_join (s : string) :
  fold_right append "" (readlines s) = s.
Proof.
  induction s as [|c s IH]; [reflexivity|].
  cbn [readlines]. destruct (Ascii.eqb_spec c NL) as [->|Hc].
  - cbn [fold_right append]. now rewrite IH.
  - destruct (readlines s) as [|l ls].
    + cbn [fold_right] in IH. now rewrite <- IH.
    + cbn [fold_right append] in *. now rewrite IH.
Qed.

Lemma readlines_ok (s : string) : lines_ok (readlines s) = true.
Proof.
  induction s as [|c s IH]; [reflexivity|].
  cbn [readlines]. destruct (Ascii.eqb c NL) eqn:Ec.
  - cbn [lines_ok terminated]. now rewrite IH.
  - destruct (readlines s) as [|l ls].
    + cbn [lines_ok terminated]. rewrite Ec. unfold unterminated.
      cbn [all_chars String.eqb terminated]. rewrite Ec. reflexivity.
    + cbn [lines_ok] in *. cbn [terminated]. rewrite Ec.
      apply andb_true_iff in IH. destruct IH as [Hl ->].
      rewrite andb_true_r.
      destruct (terminated l); [reflexivity|].
      destruct ls; [|discriminate Hl]. simpl in Hl |- *.
      unfold unterminated in *. apply andb_true_iff in Hl.
      destruct Hl as [_ Hl]. cbn [all_chars]. now rewrite Ec, Hl.
Qed.

Lemma join_app (a b : list string) :
  fold_right append "" (a ++ b)%list
  = fold_right append "" a ++ fold_right append "" b.
Proof.
  induction a as [|x a IH]; [reflexivity|].
  cbn [fold_right app]. now rewrite IH, string_app_assoc.
Qed.

Lemma terminated_newlines (l : string) :
  terminated l = true -> newlines l = 1.
Proof.
  induction l as [|c l IH]; [discriminate|].
  cbn [terminated newlines]. destruct (Ascii.eqb c NL).
  - intros H. apply String.eqb_eq in H. now subst l.
  - exact IH.
Qed.

Lemma lines_ok_before (pre post : list string) (l : string) :
  lines_ok (pre ++ l :: post)%list = true ->
  newlines (fold_right append "" pre) = List.length pre.
Proof.
  induction pre as [|x pre IH]; intros H; [reflexivity|].
  cbn [app lines_ok] in H. apply andb_true_iff in H. destruct H as [Hx H].
  cbn [fold_right List.length]. rewrite newlines_app, (IH H).
  rewrite terminated_newlines; [reflexivity|].
  destruct (terminated x); [reflexivity|].
  destruct pre; discriminate Hx.
Qed.

(** X18. Iterating over the file cuts its text after each newline and
    loses nothing: the lines put together again are the text; each line
    ends in its newline and has no other, and only the last one can lack
    it, when the text does not end in a newline; no line is empty, and an
    empty file has no line. *)
Theorem readlines_cuts_at_newlines (text : string) :
  fold_right append "" (readlines text) = text
  /\ lines_ok (readlines text) = true
  /\ (readlines text = [] <-> text = "").
Proof.
  split; [apply readlines_join|]. split; [apply readlines_ok|].
  split.
  - intros H. rewrite <- (readlines_join text), H. reflexivity.
  - intros ->. reflexivity.
Qed.

(** X19. The line the loop stops at is a line of the file, and the
    index the loop has reached is the number of newlines before it: the
    number written for an exception other than [HTMLParseError], the index
    plus one, is the line's number in the file. *)
Theorem main_line_number (text : string) (k : nat) (line : string) (e : exn)
  (Hfail : parsed text = inl (k, line, e)) :
  exists before after,
    text = before ++ line ++ after
    /\ newlines before = k
    /\ fold_right append "" (firstn k (readlines text)) = before.
Proof.
  destruct (feed_all_stops _ _ _ _ _ _ _ _ Hfail) as [_ [Hn _]].
  rewrite Nat.sub_0_r in Hn.
  destruct (nth_error_split _ _ Hn) as [pre [post [Hl Hk]]].
  pose proof (readlines_ok text) as Hok. rewrite Hl in Hok.
  pose proof (lines_ok_before pre post line Hok) as Hnl.
  exists (fold_right append "" pre), (fold_right append "" post).
  assert (Hpre : firstn k (readlines text) = pre).
  { rewrite Hl, <- Hk. rewrite firstn_app, Nat.sub_diag, firstn_all.
    cbn [firstn]. apply app_nil_r. }
  split; [|split].
  - rewrite <- (readlines_join text) at 1. rewrite Hl, join_app. reflexivity.
  - rewrite Hnl. exact Hk.
  - now rewrite Hpre.
Qed.

End Run.

Lemma main_input_unavailable_witness :
  (exists e, Toy.script ["g.html2man.py"] (Toy.world0 "x")
             = (Raise e, Toy.world0 "x"))
  /\ (exists e, Toy.script ["g.html2man.py"; "missing.html"; "out.1"]
                  (Toy.world0 "x")
                = (Raise e, Toy.world0 "x")).
Proof.
  unfold Toy.script. split.
  - destruct (main_input_unavailable Toy.parser Toy.HTMLParser Toy.feed
                Toy.close Toy.data Toy.pp ["g.html2man.py"] (Toy.world0 "x")
                (or_introl eq_refl)) as [e [H _]].
    exists e. exact H.
  - destruct (main_input_unavailable Toy.parser Toy.HTMLParser Toy.feed
                Toy.close Toy.data Toy.pp
                ["g.html2man.py"; "missing.html"; "out.1"] (Toy.world0 "x")
                (or_intror (ex_intro _ "missing.html" (conj eq_refl eq_refl))))
      as [e [H _]].
    exists e. exact H.
Defined.

(** A parser that finds the end of the file in the middle of a tag. *)
Lemma main_close_raises_witness :
  let r := main Toy.parser Toy.HTMLParser Toy.feed
             (fun _ => inl (HTMLParseError 1 0 "EOF in middle of construct"))
             Toy.data Toy.pp Toy.argv0 (Toy.world0 "<p") in
  fst r = Raise (HTMLParseError 1 0 "EOF in middle of construct")
  /\ stderr_of (trace (snd r)) = []
  /\ handles (snd r) inf = Some ("in.html", ReadMode).
Proof.
  cbv zeta.
  destruct (main_close_raises Toy.parser Toy.HTMLParser Toy.feed
              (fun _ => inl (HTMLParseError 1 0 "EOF in middle of construct"))
              Toy.data Toy.pp Toy.argv0 (Toy.world0 "<p") "in.html" "<p"
              [Text "<p"] (HTMLParseError 1 0 "EOF in middle of construct")
              eq_refl eq_refl eq_refl eq_refl) as [w' [H [Hs [_ [Hh _]]]]].
  rewrite H. split; [reflexivity|]. split; [exact Hs | exact Hh].
Defined.

Lemma main_formatter_raises_witness :
  let r := main Toy.parser Toy.HTMLParser Toy.feed Toy.close Toy.data
             (fun _ _ => inl (Exception "KeyError('blink',)"))
             Toy.argv0 (Toy.world0 "x") in
  fst r = Raise (Exception "KeyError('blink',)")
  /\ fs (snd r) "out.1" = Some "old"
  /\ handles (snd r) inf = None.
Proof.
  cbv zeta.
  destruct (main_formatter_raises Toy.parser Toy.HTMLParser Toy.feed Toy.close
              Toy.data (fun _ _ => inl (Exception "KeyError('blink',)"))
              Toy.argv0 (Toy.world0 "x") "in.html" "x"
              [Text "x"] [Text "x"] (Exception "KeyError('blink',)")
              eq_refl eq_refl eq_refl eq_refl eq_refl)
    as [w' [H [_ [Hf [Hh _]]]]].
  rewrite H. split; [reflexivity|]. split; [|exact Hh].
  cbn [snd]. rewrite Hf. reflexivity.
Defined.

Lemma main_output_argument_missing_witness :
  let r := Toy.script ["g.html2man.py"; "in.html"] (Toy.world0 "x") in
  fst r = Raise (Exception "IndexError('list index out of range',)")
  /\ trace (snd r) = [EOpen inf "in.html" ReadMode; EClose inf].
Proof.
  cbv zeta. unfold Toy.script.
  destruct (main_output_argument_missing Toy.parser Toy.HTMLParser Toy.feed
              Toy.close Toy.data Toy.pp ["g.html2man.py"; "in.html"]
              (Toy.world0 "x") "in.html" "x" "x" [Text "x"] [Text "x"]
              eq_refl eq_refl eq_refl eq_refl eq_refl eq_refl)
    as [w' [H [_ [_ Ht]]]].
  rewrite H. split; [reflexivity | exact Ht].
Defined.


Lemma main_exit_zero_witness :
  let r := Toy.script Toy.argv0 (Toy.world0 (" x" ++ String NL "")) in
  exists s, fs (snd r) "out.1" = Some (normalize s)
            /\ handles (snd r) inf = None /\ handles (snd r) outf = None.
Proof.
  cbv zeta. unfold Toy.script.
  destruct (main_exit_zero Toy.parser Toy.HTMLParser Toy.feed
              Toy.close Toy.data Toy.pp Toy.argv0
              (Toy.world0 (" x" ++ String NL "")) "in.html"
              (" x" ++ String NL "") _ _
              eq_refl eq_refl (surjective_pairing _) eq_refl)
    as [p [p' [s [outfile [_ [_ [_ [Ho [Hf [H1 H2]]]]]]]]]].
  injection Ho as <-. exists s. repeat split; assumption.
Defined.


Lemma main_line_number_witness :
  exists before after,
    "a" ++ String NL ("b" ++ String NL ("</b>" ++ String NL "c"))
    = before ++ ("</b>" ++ String NL "") ++ after
    /\ newlines before = 2.
Proof.
  destruct (main_line_number Toy.parser Toy.HTMLParser Toy.feed
              ("a" ++ String NL ("b" ++ String NL ("</b>" ++ String NL "c")))
              2 ("</b>" ++ String NL "")
              (Exception "IndexError('pop from empty list',)") eq_refl)
    as [before [after [H1 [H2 _]]]].
  exists before, after. split; [exact H1 | exact H2].
Defined.

End DriverMore.
